(** * parserlib: a shallow embedding of the parser nodes and their contracts

  The development follows the headers of the library:
  - [TerminalParser.hpp]  : class [TerminalParser]  (module [TerminalParser]);
  - [SequenceParser.hpp]  : class [SequenceParser] (module [SequenceParser])
    and the [operator >>] overloads (functions [seq], [seq_node_char], ...);
  - [util.hpp]            : [loadASCIIFile] (module [Util]).

  A parse function of the library has the C++ shape
  [bool operator ()(ParseContextType& pc) const]: it mutates the parse
  context and returns a flag.  Here it is a function from the context
  before the call to the flag and the context after the call.  Reading the
  element under a source position that is not inside the source has no
  defined behaviour in C++; the embedding makes that explicit by letting a
  parse function return [None] in that case. *)

From Stdlib Require Import List Arith Bool Lia Sorted.
From Stdlib Require String Ascii.
Import ListNotations.

#[local] Set Warnings "-register-all".

Set Implicit Arguments.

(* ================================================================== *)
(** * Part I: definitions                                              *)
(* ================================================================== *)

(** ** Template parameters

  [ParseContext<SourceType, MatchIdType, SourcePositionType>] and
  [TerminalParser<TerminalValueType>] are templates.  The class below
  collects what the templates are instantiated with.  [element_eq] is the
  comparison [*pc.sourcePosition() == m_terminalValue] that the source
  position type supplies (case sensitive or not). *)

Class ParseTypes : Type := {
  Element : Type;
  TerminalValueType : Type;
  MatchIdType : Type;
  ResumePoint : Type;
  element_eq : Element -> TerminalValueType -> bool
}.

(** ** Matches, left-recursion frames, error records *)

Section DataModel.
Context {PT : ParseTypes}.

(** Modelled from the spec: the class of matches is not among the
    sources; a match is "a record with fields id, begin, end, children". *)
Inductive Match : Type :=
  mkMatch (id : MatchIdType) (m_begin m_end : nat) (children : list Match).

(** Modelled from the spec: the phase of a left-recursion frame,
    "SEED | GROW". *)
Inductive Phase : Type := SEED | GROW.

(** Modelled from the spec: the class [Rule] and its left-recursion
    frames are not among the sources; the frame has the fields the
    design lists for it ("owning rule identity, start position, phase,
    best end, best matches snapshot, and a re-entry flag"). *)
Record LRFrame : Type := mkLRFrame {
  rule : nat;
  start_pos : nat;
  phase : Phase;
  best_end : nat;
  best_matches : list Match;
  reentry : bool
}.

(** Modelled from the spec: a resumable error, "position of failure and
    expected description". *)
Record ErrorRecord : Type := mkErrorRecord {
  position : nat;
  expected : String.string
}.

(** ** The parse context *)

(** Modelled from the spec: the class [ParseContext] is not among the
    sources (only its callers [TerminalParser] and [SequenceParser] are).
    Its state is the tuple of the design: current position, committed
    matches, left-recursion stack, resume stack, collected errors.  A
    source position is an iterator into the source; it is the index of
    the element it points to. *)
Record ParseContext : Type := mkParseContext {
  source : list Element;
  sourcePosition : nat;
  matches : list Match;
  lr_stack : list LRFrame;
  resume_stack : list ResumePoint;
  errors : list ErrorRecord
}.

(** Modelled from the spec: the end position of the source, the position
    at which "peek" has no element left. *)
Definition sourceEndPosition (pc : ParseContext) : nat :=
  length (source pc).

(** A position of a context is valid when it is inside the source or is
    the end position. *)
Definition valid (pc : ParseContext) : Prop :=
  sourcePosition pc <= sourceEndPosition pc.

(** Modelled from the spec: "peek", the read [*pc.sourcePosition()] of the
    element under the position; it is defined only for a position inside
    the source. *)
Definition dereference (pc : ParseContext) : option Element :=
  nth_error (source pc) (sourcePosition pc).

(** Modelled from the spec: "advance", by one element. *)
Definition incrementSourcePosition (pc : ParseContext) : ParseContext :=
  {| source := source pc;
     sourcePosition := S (sourcePosition pc);
     matches := matches pc;
     lr_stack := lr_stack pc;
     resume_stack := resume_stack pc;
     errors := errors pc |}.

(** Modelled from the spec: the snapshot, "an immutable capture of
    (pos, |matches|)". *)
Record State : Type := mkState {
  state_sourcePosition : nat;
  state_matchCount : nat
}.

(** Modelled from the spec: "taking a snapshot". *)
Definition state (pc : ParseContext) : State :=
  {| state_sourcePosition := sourcePosition pc;
     state_matchCount := length (matches pc) |}.

(** Modelled from the spec: "restoring truncates matches to the recorded
    length and resets pos". *)
Definition setState (s : State) (pc : ParseContext) : ParseContext :=
  {| source := source pc;
     sourcePosition := state_sourcePosition s;
     matches := firstn (state_matchCount s) (matches pc);
     lr_stack := lr_stack pc;
     resume_stack := resume_stack pc;
     errors := errors pc |}.

(** ** Parse functions

    The outcome of one call: [Some (ok, pc')] is the returned flag and
    the context after the call; [None] is a call that read an element
    outside the source. *)
Definition Outcome : Type := option (bool * ParseContext).

Definition Parser : Type := ParseContext -> Outcome.

End DataModel.

(** ** [TerminalParser] *)

Module TerminalParser.
Section Methods.
Context {PT : ParseTypes}.

(** [operator ()]: "Compares the current token, if there is one, to the
    terminal value.  If equal, then it advances the source position by
    one."  The branch [None] is the read of an element that is not there
    (a position past the end position). *)
Definition call (m_terminalValue : TerminalValueType) : Parser :=
  fun pc =>
    if negb (sourcePosition pc =? sourceEndPosition pc) then
      match dereference pc with
      | Some e =>
          if element_eq e m_terminalValue
          then Some (true, incrementSourcePosition pc)
          else Some (false, pc)
      | None => None
      end
    else Some (false, pc).

Definition parseLeftRecursionTerminal
    (m_terminalValue : TerminalValueType) : Parser :=
  fun pc => call m_terminalValue pc.

Definition parseLeftRecursionContinuation
    (m_terminalValue : TerminalValueType) : Parser :=
  fun pc => Some (false, pc).

End Methods.
End TerminalParser.

(** ** [SequenceParser] *)

Module SequenceParser.
Section Methods.
Context {PT : ParseTypes}.

(** The private helper [parse<Index>], on the children that remain from
    [Index] on: the child at [Index] is invoked; if it returns true the
    helper goes on with [Index + 1], otherwise it returns false; past
    the last child it returns true. *)
Fixpoint parse_rest (rest : list Parser) (pc : ParseContext) : Outcome :=
  match rest with
  | [] => Some (true, pc)
  | child :: rest' =>
      match child pc with
      | Some (true, pc') => parse_rest rest' pc'
      | Some (false, pc') => Some (false, pc')
      | None => None
      end
  end.

Definition parse (m_children : list Parser) (Index : nat) : Parser :=
  parse_rest (skipn Index m_children).

(** [operator ()]: "Invokes all child parsers, one by one, until one
    returns false." *)
Definition call (m_children : list Parser) : Parser :=
  fun pc =>
    let state0 := state pc in
    match parse m_children 0 pc with
    | Some (ok, pc') =>
        if negb ok then Some (ok, setState state0 pc') else Some (ok, pc')
    | None => None
    end.

End Methods.
End SequenceParser.

(** ** Parser nodes and [operator >>]

    Which [operator >>] overload the compiler selects depends on whether an
    operand is a [SequenceParser<...>].  The node type keeps that
    information: a terminal parser, a sequence parser with its tuple of
    children, or a node of any other class (whose parse function is all
    that matters here). *)

Section Nodes.
Context {PT : ParseTypes}.

Inductive ParserNode : Type :=
| TerminalNode (terminalValue : TerminalValueType)
| SequenceNode (children : list ParserNode)
| OtherNode (p : Parser).

(** The call [node(pc)]. *)
Fixpoint invoke (node : ParserNode) : Parser :=
  match node with
  | TerminalNode v => TerminalParser.call v
  | SequenceNode children => SequenceParser.call (map invoke children)
  | OtherNode p => p
  end.

(** The helper [terminal(terminalValue)]. *)
Definition terminal (terminalValue : TerminalValueType) : ParserNode :=
  TerminalNode terminalValue.

(** The four overloads of [operator >>] on parser nodes:
    two nodes; two sequences; a sequence and a node; a node and a
    sequence. *)
Definition seq_node_node (node1 node2 : ParserNode) : ParserNode :=
  SequenceNode [node1; node2].

Definition seq_sequence_sequence (children1 children2 : list ParserNode)
  : ParserNode :=
  SequenceNode (children1 ++ children2).

Definition seq_sequence_node (children1 : list ParserNode)
    (node2 : ParserNode) : ParserNode :=
  SequenceNode (children1 ++ [node2]).

Definition seq_node_sequence (node1 : ParserNode)
    (children2 : list ParserNode) : ParserNode :=
  SequenceNode ([node1] ++ children2).

(** Overload resolution: the most specialised viable overload is taken. *)
Definition seq (node1 node2 : ParserNode) : ParserNode :=
  match node1, node2 with
  | SequenceNode children1, SequenceNode children2 =>
      seq_sequence_sequence children1 children2
  | SequenceNode children1, _ => seq_sequence_node children1 node2
  | _, SequenceNode children2 => seq_node_sequence node1 children2
  | _, _ => seq_node_node node1 node2
  end.

(** [node >> ch] and [ch >> node] for a character [ch]. *)
Definition seq_node_char (node : ParserNode) (ch : TerminalValueType)
  : ParserNode :=
  seq node (TerminalNode ch).

Definition seq_char_node (ch : TerminalValueType) (node : ParserNode)
  : ParserNode :=
  seq (TerminalNode ch) node.

(** The children an operand contributes to a sequence built by
    [operator >>]: its own children when it is a sequence, itself
    otherwise. *)
Definition contributed (node : ParserNode) : list ParserNode :=
  match node with
  | SequenceNode children => children
  | _ => [node]
  end.

Definition is_sequence (node : ParserNode) : bool :=
  match node with
  | SequenceNode _ => true
  | _ => false
  end.

(** The design's combinator [sequence(a, b)], read literally: the sequence
    parser over exactly the two given children, nothing flattened. *)
Definition sequence (a b : ParserNode) : ParserNode :=
  SequenceNode [a; b].

(** *** The contract of parse functions

    "On false: pos and matches must be exactly as before the call"; on any
    return the match list is never shorter than at entry (matches are only
    appended, or appended and then wrapped). *)
Definition rolls_back (p : Parser) : Prop :=
  forall pc pc', p pc = Some (false, pc') -> state pc' = state pc.

Definition keeps_matches (p : Parser) : Prop :=
  forall pc ok pc',
    p pc = Some (ok, pc') -> length (matches pc) <= length (matches pc').

Definition obeys_contract (p : Parser) : Prop :=
  rolls_back p /\ keeps_matches p.

(** A parse function is defined on valid contexts when, called on one, it
    returns, leaves a valid context and does not replace the source. *)
Definition defined_on_valid (p : Parser) : Prop :=
  forall pc, valid pc ->
    exists ok pc', p pc = Some (ok, pc') /\ valid pc' /\ source pc' = source pc.

(** Every node of another class inside [node] has the property [Q]. *)
Fixpoint for_others (Q : Parser -> Prop) (node : ParserNode) : Prop :=
  match node with
  | TerminalNode _ => True
  | SequenceNode children =>
      (fix all (l : list ParserNode) : Prop :=
         match l with
         | [] => True
         | child :: l' => for_others Q child /\ all l'
         end) children
  | OtherNode p => Q p
  end.

Definition others_obey (node : ParserNode) : Prop :=
  for_others obeys_contract node.

(** Induction on nodes that reaches the children of a sequence. *)
Fixpoint ParserNode_nested_ind (P : ParserNode -> Prop)
    (Hterminal : forall v, P (TerminalNode v))
    (Hsequence : forall children, Forall P children ->
                                  P (SequenceNode children))
    (Hother : forall p, P (OtherNode p))
    (node : ParserNode) {struct node} : P node :=
  match node with
  | TerminalNode v => Hterminal v
  | SequenceNode children =>
      Hsequence children
        ((fix all (l : list ParserNode) : Forall P l :=
            match l with
            | [] => Forall_nil P
            | child :: l' =>
                Forall_cons child
                  (ParserNode_nested_ind Hterminal Hsequence Hother child)
                  (all l')
            end) children)
  | OtherNode p => Hother p
  end.

(** The children of a sequence succeed one after the other, each on the
    context its predecessor left. *)
Inductive all_succeed : list Parser -> ParseContext -> ParseContext -> Prop :=
| all_succeed_nil : forall pc, all_succeed [] pc pc
| all_succeed_cons : forall child rest pc pc' pc'',
    child pc = Some (true, pc') ->
    all_succeed rest pc' pc'' ->
    all_succeed (child :: rest) pc pc''.

End Nodes.

Infix ">>" := seq (at level 40, left associativity).

(** ** The GROW phase of the left-recursion resolver *)

Module Rule.
Section Grow.
Context {PT : ParseTypes}.

(** Modelled from the spec: the class [Rule], which hosts the resolver, is
    not among the sources.  [reevaluate f] stands for one re-evaluation of
    the body of the rule from its start position while the frame [f] is in
    the GROW phase (re-entry replays the best matches of [f]): [None] when
    the body fails, [Some (new_end, new_matches)] when it succeeds and ends
    at position [new_end]. *)
Variable reevaluate : LRFrame -> option (nat * list Match).

(** Modelled from the spec: "update best_end and best_matches". *)
Definition update (f : LRFrame) (new_end : nat) (new_matches : list Match)
  : LRFrame :=
  {| rule := rule f;
     start_pos := start_pos f;
     phase := GROW;
     best_end := new_end;
     best_matches := new_matches;
     reentry := reentry f |}.

(** Modelled from the spec: "After each iteration: if the new end position
    strictly exceeds best_end, update best_end and best_matches, then
    iterate again.  Otherwise, stop."  The loop is run with a bound on the
    number of iterations ([None]: the bound was reached); the result is the
    list of the frames that the continuing iterations installed, in
    order. *)
Fixpoint iterations (fuel : nat) (f : LRFrame) : option (list LRFrame) :=
  match fuel with
  | 0 => None
  | S fuel' =>
      match reevaluate f with
      | Some (new_end, new_matches) =>
          if best_end f <? new_end then
            match iterations fuel' (update f new_end new_matches) with
            | Some later => Some (update f new_end new_matches :: later)
            | None => None
            end
          else Some []
      | None => Some []
      end
  end.

(** Modelled from the spec: "The rule's result is best_end and
    best_matches" of the frame the loop stopped at. *)
Definition grow (fuel : nat) (f : LRFrame) : option LRFrame :=
  match iterations fuel f with
  | Some installed => Some (last installed f)
  | None => None
  end.

(** An iteration from [f] does not strictly increase [best_end]. *)
Definition stops_at (f : LRFrame) : Prop :=
  match reevaluate f with
  | Some (new_end, _) => new_end <= best_end f
  | None => True
  end.

(** An iteration from [f] installs [g], with a strictly larger
    [best_end]. *)
Definition continues (f g : LRFrame) : Prop :=
  exists new_end new_matches,
    reevaluate f = Some (new_end, new_matches) /\
    best_end f < new_end /\
    g = update f new_end new_matches.

(** Consecutive frames of a run are linked by continuing iterations. *)
Fixpoint chain (f : LRFrame) (installed : list LRFrame) : Prop :=
  match installed with
  | [] => True
  | g :: later => continues f g /\ chain g later
  end.

End Grow.
End Rule.

(** ** [loadASCIIFile] *)

Module Util.
Import String Ascii.
#[local] Open Scope string_scope.

(** The files that can be opened for reading, with the characters that
    reading them delivers. *)
Definition FileSystem : Type := string -> option string.

(** A [std::stringstream] as far as [loadASCIIFile] uses it: the characters
    written so far and the fail bit of the stream state. *)
Record stringstream : Type := mkStream {
  str : string;
  failbit : bool
}.

Definition fresh : stringstream := {| str := ""; failbit := false |}.

(** [strm.rdbuf()] of [std::ifstream strm(filename)]: the characters the
    file buffer delivers; none when the file could not be opened. *)
Definition rdbuf (fs : FileSystem) (filename : string) : string :=
  match fs filename with
  | Some contents => contents
  | None => ""
  end.

(** [buffer << sb] for a stream buffer [sb] (C++ [ostream.inserters]):
    nothing is done on a stream that is not good; otherwise the characters
    of [sb] are inserted, and "if the function inserts no characters, it
    calls setstate(failbit)". *)
Definition insert_streambuf (buffer : stringstream) (sb : string)
  : stringstream :=
  if failbit buffer then buffer
  else
    match sb with
    | EmptyString => {| str := str buffer; failbit := true |}
    | _ => {| str := str buffer ++ sb; failbit := false |}
    end.

(** [buffer << ch] for a character: a formatted output function, which
    writes nothing when the stream is not good. *)
Definition insert_char (buffer : stringstream) (ch : ascii) : stringstream :=
  if failbit buffer then buffer
  else {| str := str buffer ++ String ch EmptyString; failbit := false |}.

Definition loadASCIIFile (fs : FileSystem) (filename : string)
    (appendZero : bool) : string :=
  let buffer := fresh in
  let buffer := insert_streambuf buffer (rdbuf fs filename) in
  let buffer := if appendZero then insert_char buffer zero else buffer in
  str buffer.

(** A file system with one empty file and one file of three characters. *)
Definition sample_fs : FileSystem :=
  fun filename =>
    if String.eqb filename "empty.txt" then Some ""
    else if String.eqb filename "abc.txt" then Some "abc"
    else None.

End Util.

(** ** The default instantiation and sample inputs

    [ParseContext<>]: a [std::string] source, [std::string] match
    identifiers, case sensitive comparison of characters. *)

#[export] Instance CharTypes : ParseTypes := {|
  Element := Ascii.ascii;
  TerminalValueType := Ascii.ascii;
  MatchIdType := String.string;
  ResumePoint := unit;
  element_eq := Ascii.eqb
|}.

Module Samples.
Import Ascii.

(** A context over the given characters, at the given position, with
    nothing recorded yet. *)
Definition context_at (input : list ascii) (pos : nat)
  : @ParseContext CharTypes :=
  {| source := input; sourcePosition := pos; matches := [];
     lr_stack := []; resume_stack := []; errors := [] |}.

Definition a : @ParserNode CharTypes := terminal "a"%char.
Definition b : @ParserNode CharTypes := terminal "b"%char.
Definition c : @ParserNode CharTypes := terminal "c"%char.
Definition d : @ParserNode CharTypes := terminal "d"%char.

(** [terminal('a') >> terminal('b')], a sequence parser of two children. *)
Definition ab : @ParserNode CharTypes := a >> b.

(** The call operators of the terminal parsers above. *)
Definition ta : @Parser CharTypes := TerminalParser.call "a"%char.
Definition tb : @Parser CharTypes := TerminalParser.call "b"%char.
Definition tc : @Parser CharTypes := TerminalParser.call "c"%char.

(** A node of another class: it always succeeds, consumes nothing and
    records one match at the current position. *)
Definition record_one : @Parser CharTypes :=
  fun pc =>
    Some (true,
          {| source := source pc;
             sourcePosition := sourcePosition pc;
             matches := matches pc ++
                        [mkMatch (PT := CharTypes)
                           (String.String "m"%char String.EmptyString)
                           (sourcePosition pc) (sourcePosition pc) []];
             lr_stack := lr_stack pc;
             resume_stack := resume_stack pc;
             errors := errors pc |}).

(** A match is recorded, then the terminal ['x'] is expected. *)
Definition record_then_x : @ParserNode CharTypes :=
  SequenceNode [OtherNode record_one; TerminalNode "x"%char].

(** A frame of a rule entered at position 0 whose seed ended at 1. *)
Definition seed_frame : @LRFrame CharTypes :=
  {| rule := 0; start_pos := 0; phase := GROW; best_end := 1;
     best_matches := []; reentry := false |}.

(** A body whose re-evaluation extends the best end by two elements as
    long as the result stays inside an input of five elements. *)
Definition extend_by_two (f : @LRFrame CharTypes)
  : option (nat * list (@Match CharTypes)) :=
  if best_end f + 2 <=? 5 then Some (best_end f + 2, []) else None.

End Samples.

(** ** Expressions written with [operator >>] *)

Section Expressions.
Context {PT : ParseTypes}.

(** [n] calls of [incrementSourcePosition]. *)
Definition advance (n : nat) (pc : ParseContext) : ParseContext :=
  Nat.iter n incrementSourcePosition pc.

(** The elements of the source from the position of the context on. *)
Definition remaining (pc : ParseContext) : list Element :=
  skipn (sourcePosition pc) (source pc).

(** The elements at the front of [input] compare equal, one by one and
    in order, to the terminal values. *)
Fixpoint prefix_matches (input : list Element)
    (values : list TerminalValueType) {struct values} : bool :=
  match values, input with
  | [], _ => true
  | _ :: _, [] => false
  | v :: values', e :: input' =>
      if element_eq e v then prefix_matches input' values' else false
  end.

(** The number of terminal parsers inside a node. *)
Fixpoint terminals (node : ParserNode) : nat :=
  match node with
  | TerminalNode _ => 1
  | SequenceNode children => list_sum (map terminals children)
  | OtherNode _ => 0
  end.

(** The node is built from terminal parsers and sequence parsers only. *)
Definition only_terminals (node : ParserNode) : Prop :=
  for_others (fun _ => False) node.

(** An expression of the host program written with [operator >>]:
    operands, and applications of the operator in any grouping. *)
Inductive SeqExpr : Type :=
| Operand (node : ParserNode)
| Shift (lhs rhs : SeqExpr).

(** The node the expression evaluates to. *)
Fixpoint build (e : SeqExpr) : ParserNode :=
  match e with
  | Operand node => node
  | Shift lhs rhs => build lhs >> build rhs
  end.

(** The operands of the expression, from left to right. *)
Fixpoint operands (e : SeqExpr) : list ParserNode :=
  match e with
  | Operand node => [node]
  | Shift lhs rhs => operands lhs ++ operands rhs
  end.

End Expressions.

(* ================================================================== *)
(** * Part II: properties                                              *)
(* ================================================================== *)

(** ** The parse context *)

Section ContextFacts.
Context {PT : ParseTypes}.

Lemma state_inj (pc pc' : ParseContext) :
  state pc' = state pc <->
  sourcePosition pc' = sourcePosition pc /\
  length (matches pc') = length (matches pc).
Proof.
  unfold state; split.
  - intros H; injection H; auto.
  - intros [-> ->]; reflexivity.
Qed.

Lemma setState_position (s : State) (pc : ParseContext) :
  sourcePosition (setState s pc) = state_sourcePosition s.
Proof. reflexivity. Qed.

Lemma setState_matchCount (s : State) (pc : ParseContext) :
  length (matches (setState s pc)) =
  Nat.min (state_matchCount s) (length (matches pc)).
Proof. simpl. apply length_firstn. Qed.

(** Restoring a snapshot twice is restoring it once. *)
Lemma setState_idempotent (s : State) (pc : ParseContext) :
  setState s (setState s pc) = setState s pc.
Proof.
  unfold setState; simpl. f_equal.
  rewrite firstn_firstn, Nat.min_id. reflexivity.
Qed.

(** Restoring an outer snapshot hides an inner restore that kept at least
    as many matches. *)
Lemma setState_absorbs (s s' : State) (pc : ParseContext) :
  state_matchCount s <= state_matchCount s' ->
  setState s (setState s' pc) = setState s pc.
Proof.
  intros Hle. unfold setState; simpl. f_equal.
  rewrite firstn_firstn. f_equal. lia.
Qed.

(** Restoring the snapshot of a context in that same context changes
    nothing. *)
Lemma setState_own_state (pc : ParseContext) :
  setState (state pc) pc = pc.
Proof.
  destruct pc; unfold setState, state; simpl.
  rewrite firstn_all. reflexivity.
Qed.

(** A restore brings the snapshot back when no match got lost since. *)
Lemma state_setState (s : State) (pc : ParseContext) :
  state_matchCount s <= length (matches pc) ->
  state (setState s pc) = s.
Proof.
  intros Hle. destruct s as [p n]; unfold state; simpl in *.
  rewrite length_firstn. f_equal. lia.
Qed.

Lemma dereference_at_end (pc : ParseContext) :
  sourcePosition pc = sourceEndPosition pc -> dereference pc = None.
Proof.
  unfold dereference, sourceEndPosition. intros ->.
  apply nth_error_None. apply Nat.le_refl.
Qed.

Lemma dereference_inside (pc : ParseContext) :
  valid pc -> sourcePosition pc <> sourceEndPosition pc ->
  exists e, dereference pc = Some e.
Proof.
  unfold valid, dereference, sourceEndPosition. intros Hv Hne.
  destruct (nth_error (source pc) (sourcePosition pc)) as [e|] eqn:He.
  - exists e; reflexivity.
  - apply nth_error_None in He. lia.
Qed.

End ContextFacts.

(** ** [TerminalParser] *)

Section TerminalFacts.
Context {PT : ParseTypes}.
Variable v : TerminalValueType.

(** When the call is defined at all, its context is the old one or the
    old one advanced by one element. *)
Lemma terminal_call_cases (pc : ParseContext) (ok : bool)
    (pc' : ParseContext) :
  TerminalParser.call v pc = Some (ok, pc') ->
  (ok = true /\ pc' = incrementSourcePosition pc) \/
  (ok = false /\ pc' = pc).
Proof.
  unfold TerminalParser.call.
  destruct (negb (sourcePosition pc =? sourceEndPosition pc)).
  - destruct (dereference pc) as [e|]; [|discriminate].
    destruct (element_eq e v); intros H; injection H as <- <-; auto.
  - intros H; injection H as <- <-; auto.
Qed.

(** A terminal parser never reads outside the source when it is called on
    a valid context, and it leaves a valid context. *)
Lemma terminal_call_defined : defined_on_valid (TerminalParser.call v).
Proof.
  intros pc Hv. unfold TerminalParser.call.
  destruct (sourcePosition pc =? sourceEndPosition pc) eqn:Hend; simpl.
  - exists false, pc; auto.
  - apply Nat.eqb_neq in Hend.
    destruct (dereference_inside Hv Hend) as [e He]. rewrite He.
    destruct (element_eq e v).
    + exists true, (incrementSourcePosition pc).
      split; [reflexivity|]. split; [|reflexivity].
      unfold valid, sourceEndPosition in *; simpl. lia.
    + exists false, pc; auto.
Qed.

(** C3. A terminal parser for [v], called on a valid context, succeeds if
    and only if the context is not at the end of the input and the element
    at the current position equals [v]; when it succeeds the context is the
    old one with the source position advanced by exactly one element; in
    every other case it returns false (and the context is the old one). *)
Theorem terminal_call_spec (pc : ParseContext) :
  valid pc ->
  let here :=
    sourcePosition pc <> sourceEndPosition pc /\
    exists e, dereference pc = Some e /\ element_eq e v = true in
  ((exists pc', TerminalParser.call v pc = Some (true, pc')) <-> here) /\
  (forall pc', TerminalParser.call v pc = Some (true, pc') ->
     pc' = incrementSourcePosition pc /\
     sourcePosition pc' = S (sourcePosition pc)) /\
  (~ here -> TerminalParser.call v pc = Some (false, pc)).
Proof.
  intros Hv here. subst here. unfold TerminalParser.call.
  destruct (sourcePosition pc =? sourceEndPosition pc) eqn:Hend; simpl.
  - apply Nat.eqb_eq in Hend. split; [split|split].
    + intros [pc' H]; discriminate.
    + intros [Hne _]; contradiction.
    + intros pc' H; discriminate.
    + reflexivity.
  - apply Nat.eqb_neq in Hend.
    destruct (dereference_inside Hv Hend) as [e He]. rewrite He.
    destruct (element_eq e v) eqn:Heq; (split; [split|split]).
    + intros _. split; [exact Hend|]. exists e; auto.
    + intros _. eexists; reflexivity.
    + intros pc' H. injection H as <-. split; reflexivity.
    + intros Hn. exfalso. apply Hn. split; [exact Hend|]. exists e; auto.
    + intros [pc' H]; discriminate.
    + intros [_ [e' [He' Heq']]]. injection He' as <-. congruence.
    + intros pc' H; discriminate.
    + reflexivity.
Qed.

(** C8. At the end of the input a terminal parser returns false and the
    context is untouched; the element under the position, whose read is
    not defined there, is not read (the call has a defined outcome). *)
Theorem terminal_call_at_end (pc : ParseContext) :
  sourcePosition pc = sourceEndPosition pc ->
  dereference pc = None /\
  TerminalParser.call v pc = Some (false, pc).
Proof.
  intros Hend. split.
  - apply dereference_at_end; exact Hend.
  - unfold TerminalParser.call.
    apply Nat.eqb_eq in Hend. rewrite Hend. reflexivity.
Qed.

(** C6. Under left recursion a terminal parser behaves as outside of it:
    [parseLeftRecursionTerminal] is [operator ()], the continuation
    returns false on an untouched context, and none of the three functions
    changes the stack of left-recursion frames. *)
Theorem terminal_left_recursion (pc : ParseContext) :
  TerminalParser.parseLeftRecursionTerminal v pc = TerminalParser.call v pc /\
  TerminalParser.parseLeftRecursionContinuation v pc = Some (false, pc) /\
  (forall ok pc',
     TerminalParser.call v pc = Some (ok, pc') \/
     TerminalParser.parseLeftRecursionTerminal v pc = Some (ok, pc') \/
     TerminalParser.parseLeftRecursionContinuation v pc = Some (ok, pc') ->
     lr_stack pc' = lr_stack pc).
Proof.
  split; [reflexivity|]. split; [reflexivity|].
  intros ok pc' [H | [H | H]].
  - destruct (terminal_call_cases _ H) as [[_ ->] | [_ ->]]; reflexivity.
  - destruct (terminal_call_cases _ H) as [[_ ->] | [_ ->]]; reflexivity.
  - injection H as _ <-. reflexivity.
Qed.

End TerminalFacts.

(** ** [SequenceParser] *)

Section SequenceFacts.
Context {PT : ParseTypes}.

Lemma skipn_nth_error {A : Type} (l : list A) (n : nat) :
  skipn n l =
  match nth_error l n with
  | Some x => x :: skipn (S n) l
  | None => []
  end.
Proof.
  revert l; induction n as [|n IH]; intros [|x l]; simpl; auto.
Qed.

(** The helper written with structural recursion satisfies the defining
    equation of [parse<Index>] in the header. *)
Lemma parse_unfold (m_children : list Parser) (Index : nat)
    (pc : ParseContext) :
  SequenceParser.parse m_children Index pc =
  if Index <? length m_children then
    match nth_error m_children Index with
    | Some child =>
        match child pc with
        | Some (true, pc') => SequenceParser.parse m_children (Index + 1) pc'
        | Some (false, pc') => Some (false, pc')
        | None => None
        end
    | None => None
    end
  else Some (true, pc).
Proof.
  unfold SequenceParser.parse. rewrite Nat.add_1_r.
  rewrite (skipn_nth_error m_children Index).
  destruct (Index <? length m_children) eqn:Hlt.
  - apply Nat.ltb_lt in Hlt.
    destruct (nth_error m_children Index) eqn:Hn.
    + reflexivity.
    + apply nth_error_None in Hn. lia.
  - apply Nat.ltb_ge in Hlt. apply nth_error_None in Hlt.
    rewrite Hlt. reflexivity.
Qed.

Lemma parse_rest_app (l1 l2 : list Parser) (pc : ParseContext) :
  SequenceParser.parse_rest (l1 ++ l2) pc =
  match SequenceParser.parse_rest l1 pc with
  | Some (true, pc') => SequenceParser.parse_rest l2 pc'
  | other => other
  end.
Proof.
  revert pc; induction l1 as [|child l1 IH]; intros pc; simpl.
  - reflexivity.
  - destruct (child pc) as [[[|] pc']|]; auto.
Qed.

Lemma parse_rest_all_succeed (children : list Parser)
    (pc pc' : ParseContext) :
  SequenceParser.parse_rest children pc = Some (true, pc') <->
  all_succeed children pc pc'.
Proof.
  split.
  - revert pc; induction children as [|child rest IH]; intros pc; simpl.
    + intros H; injection H as <-. constructor.
    + destruct (child pc) as [[[|] pc1]|] eqn:Hc; try discriminate.
      intros H. econstructor; eauto.
  - induction 1 as [|child rest pc pc1 pc2 Hc _ IH]; simpl.
    + reflexivity.
    + rewrite Hc. exact IH.
Qed.

(** The helper stops at the first child that returns false: the children
    after it have no part in the outcome. *)
Lemma parse_rest_first_failure (before after : list Parser)
    (failing : Parser) (pc pc1 pc2 : ParseContext) :
  all_succeed before pc pc1 ->
  failing pc1 = Some (false, pc2) ->
  SequenceParser.parse_rest (before ++ failing :: after) pc =
  Some (false, pc2).
Proof.
  intros Hb Hf. rewrite parse_rest_app.
  apply parse_rest_all_succeed in Hb. rewrite Hb. simpl.
  rewrite Hf. reflexivity.
Qed.

(** A false outcome of the helper comes from a first failing child. *)
Lemma parse_rest_failure_inv (children : list Parser)
    (pc pc2 : ParseContext) :
  SequenceParser.parse_rest children pc = Some (false, pc2) ->
  exists before failing after pc1,
    children = before ++ failing :: after /\
    all_succeed before pc pc1 /\
    failing pc1 = Some (false, pc2).
Proof.
  revert pc; induction children as [|child rest IH]; intros pc; simpl.
  - discriminate.
  - destruct (child pc) as [[[|] pc1]|] eqn:Hc; try discriminate.
    + intros H. destruct (IH _ H) as (bf & f & af & p1 & -> & Hb & Hf).
      exists (child :: bf), f, af, p1. repeat split; auto.
      econstructor; eauto.
    + intros H; injection H as <-.
      exists [], child, rest, pc. repeat split; auto. constructor.
Qed.

Lemma parse_rest_keeps_matches (children : list Parser) :
  Forall keeps_matches children ->
  keeps_matches (SequenceParser.parse_rest children).
Proof.
  induction 1 as [|child rest Hc _ IH]; intros pc ok pc'; simpl.
  - intros H; injection H as _ <-. apply Nat.le_refl.
  - destruct (child pc) as [[[|] pc1]|] eqn:Hcall; try discriminate.
    + intros H. apply Hc in Hcall. apply IH in H. lia.
    + intros H; injection H as _ <-. apply Hc in Hcall. exact Hcall.
Qed.

Lemma call_unfold (children : list Parser) (pc : ParseContext) :
  SequenceParser.call children pc =
  match SequenceParser.parse_rest children pc with
  | Some (true, pc') => Some (true, pc')
  | Some (false, pc') => Some (false, setState (state pc) pc')
  | None => None
  end.
Proof.
  unfold SequenceParser.call, SequenceParser.parse. simpl.
  destruct (SequenceParser.parse_rest children pc) as [[[|] pc']|];
    reflexivity.
Qed.

Lemma parse_rest_defined (children : list Parser) :
  Forall defined_on_valid children ->
  defined_on_valid (SequenceParser.parse_rest children).
Proof.
  induction 1 as [|child rest Hc _ IH]; intros pc Hv; simpl.
  - exists true, pc; auto.
  - destruct (Hc pc Hv) as (ok & pc1 & Hcall & Hv1 & Hs1). rewrite Hcall.
    destruct ok.
    + destruct (IH pc1 Hv1) as (ok' & pc2 & Hrest & Hv2 & Hs2).
      exists ok', pc2. rewrite Hs2. auto.
    + exists false, pc1; auto.
Qed.

(** A sequence parser over children that are defined on valid contexts is
    defined on valid contexts: the restore on failure puts back a position
    of the same source. *)
Lemma sequence_call_defined (children : list Parser) :
  Forall defined_on_valid children ->
  defined_on_valid (SequenceParser.call children).
Proof.
  intros Hall pc Hv. rewrite call_unfold.
  destruct (parse_rest_defined Hall Hv) as (ok & pc1 & Hrest & Hv1 & Hs1).
  rewrite Hrest. destruct ok.
  - exists true, pc1; auto.
  - exists false, (setState (state pc) pc1).
    split; [reflexivity|]. split; [|exact Hs1].
    unfold valid, sourceEndPosition in *; simpl. rewrite Hs1. exact Hv.
Qed.

(** C9. A sequence parser without children succeeds on every context and
    leaves it as it was. *)
Theorem empty_sequence_succeeds (pc : ParseContext) :
  (forall Index, SequenceParser.parse [] Index pc = Some (true, pc)) /\
  SequenceParser.call [] pc = Some (true, pc) /\
  all_succeed [] pc pc.
Proof.
  split; [|split].
  - intros Index. rewrite parse_unfold. reflexivity.
  - rewrite call_unfold. reflexivity.
  - constructor.
Qed.

(** C2. A sequence parser succeeds exactly when its children succeed one
    after the other in declaration order, each on the context left by its
    predecessor, and then leaves the context of the last child.  When a
    child is the first to return false, the sequence returns false with
    the snapshot taken at entry restored over the context that child left
    (the position is the one at entry, and so is the match count unless
    matches recorded before the call got lost), whatever children come
    after it: these are not invoked. *)
Theorem sequence_call_spec (children : list Parser) (pc : ParseContext) :
  (forall pc',
     SequenceParser.call children pc = Some (true, pc') <->
     all_succeed children pc pc') /\
  (forall before failing after pc1 pc2,
     children = before ++ failing :: after ->
     all_succeed before pc pc1 ->
     failing pc1 = Some (false, pc2) ->
     SequenceParser.call children pc =
       Some (false, setState (state pc) pc2) /\
     sourcePosition (setState (state pc) pc2) = sourcePosition pc /\
     (length (matches pc) <= length (matches pc2) ->
      state (setState (state pc) pc2) = state pc) /\
     forall after',
       SequenceParser.call (before ++ failing :: after') pc =
       SequenceParser.call children pc).
Proof.
  split.
  - intros pc'. rewrite call_unfold, <- parse_rest_all_succeed.
    destruct (SequenceParser.parse_rest children pc) as [[[|] p]|];
      split; intros H; try discriminate; exact H.
  - intros before failing after pc1 pc2 -> Hb Hf.
    assert (Hcall : forall l,
      SequenceParser.call (before ++ failing :: l) pc =
      Some (false, setState (state pc) pc2)).
    { intros l. rewrite call_unfold.
      rewrite (parse_rest_first_failure _ _ Hb Hf). reflexivity. }
    split; [apply Hcall|]. split; [reflexivity|]. split.
    + intros Hlen. apply state_setState. exact Hlen.
    + intros after'. rewrite !Hcall. reflexivity.
Qed.

(** A sequence whose children never lose matches obeys the contract:
    whatever way a child fails, the snapshot taken at entry is put back. *)
Lemma sequence_obeys_contract (children : list Parser) :
  Forall keeps_matches children ->
  obeys_contract (SequenceParser.call children).
Proof.
  intros Hk. pose proof (parse_rest_keeps_matches Hk) as Hrest. split.
  - intros pc pc'. rewrite call_unfold.
    destruct (SequenceParser.parse_rest children pc) as [[[|] p]|] eqn:Hp;
      try discriminate.
    intros H; injection H as <-. apply Hrest in Hp.
    apply state_setState. exact Hp.
  - intros pc ok pc'. rewrite call_unfold.
    destruct (SequenceParser.parse_rest children pc) as [[[|] p]|] eqn:Hp;
      try discriminate; intros H; injection H as <- <-.
    + apply Hrest in Hp. exact Hp.
    + apply Hrest in Hp. rewrite setState_matchCount. simpl. lia.
Qed.

Lemma terminal_obeys_contract (v : TerminalValueType) :
  obeys_contract (TerminalParser.call v).
Proof.
  split.
  - intros pc pc' H.
    destruct (terminal_call_cases _ _ H) as [[? _] | [_ ->]];
      [discriminate | reflexivity].
  - intros pc ok pc' H.
    destruct (terminal_call_cases _ _ H) as [[_ ->] | [_ ->]];
      apply Nat.le_refl.
Qed.

End SequenceFacts.

(** ** Parser nodes *)

Section NodeFacts.
Context {PT : ParseTypes}.

Lemma for_others_sequence (Q : Parser -> Prop)
    (children : list ParserNode) :
  for_others Q (SequenceNode children) <-> Forall (for_others Q) children.
Proof.
  simpl. induction children as [|child rest IH].
  - split; constructor.
  - split.
    + intros [Hc Hr]. constructor; [exact Hc | apply IH; exact Hr].
    + intros H. inversion H; subst. split; [assumption | apply IH; assumption].
Qed.

(** The contract is compositional: a node obeys it as soon as the nodes of
    other classes inside it do. *)
Lemma invoke_obeys_contract (node : ParserNode) :
  others_obey node -> obeys_contract (invoke node).
Proof.
  unfold others_obey.
  induction node as [v | children IH | p] using ParserNode_nested_ind.
  - intros _. apply terminal_obeys_contract.
  - intros Hall. apply for_others_sequence in Hall.
    simpl. apply sequence_obeys_contract.
    apply Forall_map.
    induction IH as [|child rest Hchild _ IHrest].
    + constructor.
    + inversion Hall; subst. constructor.
      * apply Hchild; assumption.
      * apply IHrest; assumption.
  - intros H; exact H.
Qed.

(** Parsing with terminals and sequences of terminals never reads outside
    the source: on a valid context every node has an outcome, as soon as
    the nodes of other classes inside it have one. *)
Lemma invoke_defined (node : ParserNode) :
  for_others defined_on_valid node -> defined_on_valid (invoke node).
Proof.
  induction node as [v | children IH | p] using ParserNode_nested_ind.
  - intros _. apply terminal_call_defined.
  - intros Hall. apply for_others_sequence in Hall.
    simpl. apply sequence_call_defined.
    apply Forall_map.
    induction IH as [|child rest Hchild _ IHrest].
    + constructor.
    + inversion Hall; subst. constructor.
      * apply Hchild; assumption.
      * apply IHrest; assumption.
  - intros H; exact H.
Qed.

(** C1. Rollback on failure.  For every parser expression built from
    terminal parsers, sequence parsers and nodes of other classes that obey
    the contract, and for every parse context: if the parse call returns
    false, the source position and the number of recorded matches are
    those of the context before the call. *)
Theorem rollback_on_failure (node : ParserNode) (pc pc' : ParseContext) :
  others_obey node ->
  invoke node pc = Some (false, pc') ->
  sourcePosition pc' = sourcePosition pc /\
  length (matches pc') = length (matches pc).
Proof.
  intros Hobey Hcall.
  destruct (invoke_obeys_contract node Hobey) as [Hroll _].
  apply state_inj. apply Hroll. exact Hcall.
Qed.

(** *** [operator >>] *)

Lemma seq_contributed (node1 node2 : ParserNode) :
  node1 >> node2 = SequenceNode (contributed node1 ++ contributed node2).
Proof. destruct node1, node2; reflexivity. Qed.

Lemma contributed_not_sequence (node : ParserNode) :
  is_sequence node = false -> contributed node = [node].
Proof. destruct node; simpl; intros H; [reflexivity | discriminate | reflexivity]. Qed.

(** C4, as the code has it.  [(a >> b) >> c] and [a >> (b >> c)] construct
    the same sequence parser: its children are what [a], [b] and [c]
    contribute, in this order, where an operand that is itself a sequence
    parser contributes its children and any other operand contributes
    itself.  When none of [a], [b], [c] is a sequence parser the children
    are exactly [a], [b], [c].  The two parsers have the same outcome on
    every parse context. *)
Theorem seq_flattens (a b c : ParserNode) :
  (a >> b) >> c =
    SequenceNode (contributed a ++ contributed b ++ contributed c) /\
  a >> (b >> c) =
    SequenceNode (contributed a ++ contributed b ++ contributed c) /\
  (is_sequence a = false -> is_sequence b = false -> is_sequence c = false ->
   (a >> b) >> c = SequenceNode [a; b; c] /\
   a >> (b >> c) = SequenceNode [a; b; c]) /\
  (forall pc, invoke ((a >> b) >> c) pc = invoke (a >> (b >> c)) pc).
Proof.
  assert (Hl : (a >> b) >> c =
               SequenceNode (contributed a ++ contributed b ++ contributed c)).
  { rewrite (seq_contributed a b), seq_contributed. simpl.
    rewrite app_assoc. reflexivity. }
  assert (Hr : a >> (b >> c) =
               SequenceNode (contributed a ++ contributed b ++ contributed c)).
  { rewrite (seq_contributed b c), seq_contributed. reflexivity. }
  split; [exact Hl|]. split; [exact Hr|]. split.
  - intros Ha Hb Hc. rewrite Hl, Hr.
    rewrite !contributed_not_sequence by assumption. split; reflexivity.
  - intros pc. rewrite Hl, Hr. reflexivity.
Qed.

(** Splicing the children of a left operand into the sequence does not
    change what is parsed. *)
Lemma invoke_spliced_left (children : list ParserNode) (node : ParserNode)
    (pc : ParseContext) :
  invoke (SequenceNode (children ++ [node])) pc =
  invoke (SequenceNode [SequenceNode children; node]) pc.
Proof.
  simpl. rewrite map_app. simpl.
  rewrite !call_unfold, parse_rest_app. simpl. rewrite call_unfold.
  destruct (SequenceParser.parse_rest (map invoke children) pc)
    as [[[|] pc1]|]; simpl.
  - destruct (invoke node pc1) as [[[|] pc2]|]; reflexivity.
  - rewrite setState_idempotent. reflexivity.
  - reflexivity.
Qed.

(** Nor does splicing the children of a right operand after a terminal. *)
Lemma invoke_spliced_right (ch : TerminalValueType)
    (children : list ParserNode) (pc : ParseContext) :
  invoke (SequenceNode ([TerminalNode ch] ++ children)) pc =
  invoke (SequenceNode [TerminalNode ch; SequenceNode children]) pc.
Proof.
  simpl. rewrite !call_unfold. simpl.
  destruct (TerminalParser.call ch pc) as [[[|] pc1]|] eqn:Ht;
    try reflexivity.
  destruct (terminal_call_cases _ _ Ht) as [[_ ->] | [? _]];
    [|discriminate].
  rewrite call_unfold.
  destruct (SequenceParser.parse_rest (map invoke children)
              (incrementSourcePosition pc)) as [[[|] pc2]|]; simpl;
    try reflexivity.
  rewrite setState_absorbs; [reflexivity | simpl; apply Nat.le_refl].
Qed.

(** C7. The sugar for a character operand is explicit composition:
    [node >> ch] is [node >> terminal(ch)] and [ch >> node] is
    [terminal(ch) >> node], and on every parse context they have the
    outcome of the two-children sequences [sequence(node, terminal(ch))]
    and [sequence(terminal(ch), node)]. *)
Theorem char_sugar_is_sequence (node : ParserNode) (ch : TerminalValueType)
    (pc : ParseContext) :
  seq_node_char node ch = node >> terminal ch /\
  seq_char_node ch node = terminal ch >> node /\
  invoke (seq_node_char node ch) pc = invoke (sequence node (terminal ch)) pc /\
  invoke (seq_char_node ch node) pc = invoke (sequence (terminal ch) node) pc.
Proof.
  split; [reflexivity|]. split; [reflexivity|]. split.
  - destruct node as [v | children | p]; try reflexivity.
    apply invoke_spliced_left.
  - destruct node as [v | children | p]; try reflexivity.
    apply invoke_spliced_right.
Qed.

End NodeFacts.

(** ** The GROW phase terminates *)

Section GrowFacts.
Context {PT : ParseTypes}.
Variable reevaluate : LRFrame -> option (nat * list Match).

(** The input is finite: an end position is a position of the input. *)
Variable input_length : nat.
Hypothesis within_input :
  forall f new_end new_matches,
    reevaluate f = Some (new_end, new_matches) -> new_end <= input_length.

Lemma last_cons_default {A : Type} (l : list A) :
  forall x d : A, last (x :: l) d = last l x.
Proof.
  induction l as [|y l IH]; intros x d.
  - reflexivity.
  - change (last (x :: y :: l) d) with (last (y :: l) d).
    rewrite (IH y d), (IH y x). reflexivity.
Qed.

Lemma last_in_cons {A : Type} (l : list A) :
  forall d : A, In (last l d) (d :: l).
Proof.
  induction l as [|y l IH]; intros d.
  - left; reflexivity.
  - rewrite last_cons_default. right. apply IH.
Qed.

(** A run of the loop, by induction on the room left between [best_end]
    and the end of the input. *)
Lemma iterations_run (room : nat) :
  forall f, input_length - best_end f <= room ->
  exists installed,
    (forall fuel, room < fuel ->
       Rule.iterations reevaluate fuel f = Some installed) /\
    Rule.chain reevaluate f installed /\
    Rule.stops_at reevaluate (last installed f) /\
    StronglySorted lt (map best_end (f :: installed)) /\
    Forall (fun g => best_end g <= input_length) installed /\
    length installed <= room.
Proof.
  induction room as [|room IH]; intros f Hroom.
  - exists []. split; [|split; [|split; [|split; [|split]]]].
    + intros [|fuel] Hfuel; [lia|]. simpl.
      destruct (reevaluate f) as [[e ms]|] eqn:He; [|reflexivity].
      apply within_input in He.
      replace (best_end f <? e) with false; [reflexivity|].
      symmetry; apply Nat.ltb_ge; lia.
    + exact I.
    + simpl. unfold Rule.stops_at.
      destruct (reevaluate f) as [[e ms]|] eqn:He; [|exact I].
      apply within_input in He. lia.
    + simpl. repeat constructor.
    + constructor.
    + apply Nat.le_refl.
  - destruct (reevaluate f) as [[e ms]|] eqn:He.
    + destruct (best_end f <? e) eqn:Hlt.
      * apply Nat.ltb_lt in Hlt. pose proof (within_input He) as Hin.
        destruct (IH (Rule.update f e ms)) as
          (later & Hfuel & Hchain & Hstop & Hsorted & Hbound & Hlen).
        { simpl. lia. }
        exists (Rule.update f e ms :: later).
        split; [|split; [|split; [|split; [|split]]]].
        -- intros [|fuel] Hf; [lia|]. simpl. rewrite He.
           apply Nat.ltb_lt in Hlt. rewrite Hlt.
           rewrite Hfuel by lia. reflexivity.
        -- simpl. split; [|exact Hchain].
           exists e, ms. auto.
        -- rewrite last_cons_default. exact Hstop.
        -- change (map best_end (f :: Rule.update f e ms :: later))
             with (best_end f :: map best_end (Rule.update f e ms :: later)).
           constructor; [exact Hsorted|].
           constructor; [exact Hlt|].
           apply StronglySorted_inv in Hsorted. destruct Hsorted as [_ Hall].
           simpl in Hall. eapply Forall_impl; [|exact Hall].
           intros x Hx. lia.
        -- constructor; [exact Hin | exact Hbound].
        -- simpl. lia.
      * apply Nat.ltb_ge in Hlt. exists [].
        split; [|split; [|split; [|split; [|split]]]].
        -- intros [|fuel] Hf; [lia|]. simpl. rewrite He.
           replace (best_end f <? e) with false; [reflexivity|].
           symmetry; apply Nat.ltb_ge; exact Hlt.
        -- exact I.
        -- simpl. unfold Rule.stops_at. rewrite He. exact Hlt.
        -- simpl. repeat constructor.
        -- constructor.
        -- apply Nat.le_0_l.
    + exists []. split; [|split; [|split; [|split; [|split]]]].
      * intros [|fuel] Hf; [lia|]. simpl. rewrite He. reflexivity.
      * exact I.
      * simpl. unfold Rule.stops_at. rewrite He. exact I.
      * simpl. repeat constructor.
      * constructor.
      * apply Nat.le_0_l.
Qed.

(** C5. On a finite input the GROW phase terminates.  From every frame
    there is a finite run of the loop: with any bound above the room left
    between [best_end] and the end of the input the loop returns; every
    iteration that continues installs a strictly larger [best_end], so
    [best_end] never decreases and stays within the input; the loop stops
    at the first frame from which an iteration does not strictly increase
    [best_end], and the result is that frame. *)
Theorem grow_terminates (f : LRFrame) :
  exists installed,
    (forall fuel, input_length - best_end f < fuel ->
       Rule.iterations reevaluate fuel f = Some installed /\
       Rule.grow reevaluate fuel f = Some (last installed f)) /\
    Rule.chain reevaluate f installed /\
    Rule.stops_at reevaluate (last installed f) /\
    StronglySorted lt (map best_end (f :: installed)) /\
    best_end f <= best_end (last installed f) /\
    Forall (fun g => best_end g <= input_length) installed /\
    length installed <= input_length - best_end f.
Proof.
  destruct (@iterations_run _ f (Nat.le_refl _)) as
    (installed & Hfuel & Hchain & Hstop & Hsorted & Hbound & Hlen).
  exists installed.
  split; [|split; [|split; [|split; [|split; [|split]]]]]; auto.
  - intros fuel Hf. unfold Rule.grow. rewrite (Hfuel fuel Hf). auto.
  - apply StronglySorted_inv in Hsorted. destruct Hsorted as [_ Hall].
    destruct (last_in_cons installed f) as [<- | Hin].
    + apply Nat.le_refl.
    + rewrite Forall_forall in Hall.
      apply Nat.lt_le_incl, Hall, in_map, Hin.
Qed.

End GrowFacts.

(** ** [loadASCIIFile] *)

Section UtilFacts.
Import String Ascii.
#[local] Open Scope string_scope.

(** Without [appendZero] the result is what reading the file delivers. *)
Lemma loadASCIIFile_default (fs : Util.FileSystem) (filename s : string) :
  fs filename = Some s ->
  Util.loadASCIIFile fs filename false = s.
Proof.
  intros Hfile. unfold Util.loadASCIIFile, Util.rdbuf. rewrite Hfile.
  destruct s; reflexivity.
Qed.

(** With [appendZero] a file that is not empty is returned with one
    ['\0'] after its characters. *)
Lemma loadASCIIFile_appendZero (fs : Util.FileSystem)
    (filename s : string) :
  fs filename = Some s ->
  s <> "" ->
  Util.loadASCIIFile fs filename true = s ++ String zero "".
Proof.
  intros Hfile Hne. unfold Util.loadASCIIFile, Util.rdbuf. rewrite Hfile.
  destruct s; [contradiction|]. reflexivity.
Qed.

(** C10, at an empty file.  Copying the stream buffer of an empty file
    inserts no character, which sets the fail bit of the string stream;
    the ['\0'] written next is dropped.  With [appendZero] the function
    returns the empty string, not the string that consists of one
    ['\0']. *)
Theorem loadASCIIFile_empty_file :
  Util.sample_fs "empty.txt" = Some "" /\
  Util.loadASCIIFile Util.sample_fs "empty.txt" false = "" /\
  Util.loadASCIIFile Util.sample_fs "empty.txt" true = "" /\
  Util.loadASCIIFile Util.sample_fs "empty.txt" true <> "" ++ String zero "".
Proof.
  repeat split; try reflexivity.
  vm_compute. discriminate.
Qed.

Example loadASCIIFile_abc :
  Util.loadASCIIFile Util.sample_fs "abc.txt" false = "abc" /\
  Util.loadASCIIFile Util.sample_fs "abc.txt" true = "abc" ++ String zero "".
Proof. split; reflexivity. Qed.

End UtilFacts.

(** ** Runs on sample inputs *)

Section SampleRuns.
Import Ascii Samples.
#[local] Open Scope char_scope.

Lemma record_one_obeys_contract : obeys_contract record_one.
Proof.
  split.
  - intros pc pc' H. discriminate.
  - intros pc ok pc' H. unfold record_one in H. injection H as _ <-.
    simpl. rewrite length_app. simpl. lia.
Defined.

(** On ["ab"] the match is recorded, ['x'] is not found, and the sequence
    puts position and match count back. *)
Lemma rollback_on_failure_witness :
  exists pc',
    invoke record_then_x (context_at ["a"; "b"] 0) = Some (false, pc') /\
    sourcePosition pc' = 0 /\
    length (matches pc') = 0.
Proof.
  exists (context_at ["a"; "b"] 0). split; [reflexivity|].
  apply (@rollback_on_failure CharTypes record_then_x
           (context_at ["a"; "b"] 0) (context_at ["a"; "b"] 0)).
  - simpl. split; [exact record_one_obeys_contract | split; exact I].
  - reflexivity.
Defined.

(** On ["axc"] the second of three terminals is the first to fail. *)
Lemma sequence_call_spec_witness :
  SequenceParser.call [ta; tb; tc] (context_at ["a"; "x"; "c"] 0) =
  Some (false, context_at ["a"; "x"; "c"] 0).
Proof.
  destruct (@sequence_call_spec CharTypes [ta; tb; tc]
              (context_at ["a"; "x"; "c"] 0)) as [_ H].
  destruct (H [ta] tb [tc] (context_at ["a"; "x"; "c"] 1)
              (context_at ["a"; "x"; "c"] 1)) as [Hcall _].
  - reflexivity.
  - econstructor; [reflexivity | constructor].
  - reflexivity.
  - exact Hcall.
Defined.

Lemma terminal_call_spec_witness :
  exists pc',
    TerminalParser.call "a" (context_at ["a"; "b"] 0) = Some (true, pc').
Proof.
  destruct (@terminal_call_spec CharTypes "a" (context_at ["a"; "b"] 0))
    as [[_ H] _].
  - unfold valid, sourceEndPosition; simpl; lia.
  - apply H. split.
    + simpl; discriminate.
    + exists "a". split; reflexivity.
Defined.

Lemma terminal_call_at_end_witness :
  dereference (context_at ["a"] 1) = None /\
  TerminalParser.call "a" (context_at ["a"] 1) =
  Some (false, context_at ["a"] 1).
Proof.
  apply (@terminal_call_at_end CharTypes "a" (context_at ["a"] 1)).
  reflexivity.
Defined.

Lemma terminal_left_recursion_witness :
  lr_stack (incrementSourcePosition (context_at ["a"] 0)) =
  lr_stack (context_at ["a"] 0).
Proof.
  destruct (@terminal_left_recursion CharTypes "a" (context_at ["a"] 0))
    as [_ [_ H]].
  apply (H true). left. reflexivity.
Defined.

Lemma seq_flattens_witness :
  (a >> b) >> c = SequenceNode [a; b; c] /\
  a >> (b >> c) = SequenceNode [a; b; c].
Proof.
  destruct (@seq_flattens CharTypes a b c) as [_ [_ [H _]]].
  apply H; reflexivity.
Defined.

(** C4 as stated fails when an operand is itself a sequence parser: the
    children of [ab >> c >> d] are [a], [b], [c], [d], not [ab], [c],
    [d]. *)
Lemma seq_splices_sequence_operand :
  (ab >> c) >> d = SequenceNode [a; b; c; d] /\
  (ab >> c) >> d <> SequenceNode [ab; c; d] /\
  ab >> (c >> d) <> SequenceNode [ab; c; d].
Proof.
  split; [reflexivity|].
  split; intros H; cbv in H; discriminate H.
Qed.

Lemma extend_by_two_within_input :
  forall (f : @LRFrame CharTypes) new_end new_matches,
    extend_by_two f = Some (new_end, new_matches) -> new_end <= 5.
Proof.
  intros f e ms. unfold extend_by_two.
  destruct (best_end f + 2 <=? 5)%nat eqn:Hle; [|discriminate].
  intros H; injection H as <- _. apply Nat.leb_le. exact Hle.
Defined.

(** From a seed that ended at 1 the loop installs the ends 3 and 5 and
    stops; ten iterations are more than enough. *)
Lemma grow_terminates_witness :
  exists installed,
    Rule.iterations extend_by_two 10 seed_frame = Some installed /\
    Rule.grow extend_by_two 10 seed_frame = Some (last installed seed_frame).
Proof.
  destruct (@grow_terminates CharTypes extend_by_two 5
              extend_by_two_within_input seed_frame)
    as (installed & Hfuel & _).
  exists installed. apply Hfuel. simpl. lia.
Defined.

(** The sequences of the introduction: [ab = terminal('a') >> terminal('b')]
    and [abc = ab >> terminal('c')] parse ["abc"] up to its end. *)
Example abc_parses :
  invoke (ab >> c) (context_at ["a"; "b"; "c"] 0) =
  Some (true, context_at ["a"; "b"; "c"] 3).
Proof. reflexivity. Qed.

Example abc_rejects_abd :
  invoke (ab >> c) (context_at ["a"; "b"; "d"] 0) =
  Some (false, context_at ["a"; "b"; "d"] 0).
Proof. reflexivity. Qed.

Example grow_sample_run :
  option_map (map best_end) (Rule.iterations extend_by_two 10 seed_frame) =
  Some [3; 5].
Proof. reflexivity. Qed.

End SampleRuns.

(** ** Further properties of terminal and sequence parsers *)

Section MoreFacts.
Context {PT : ParseTypes}.

Lemma advance_fields (n : nat) (pc : ParseContext) :
  advance n pc =
  {| source := source pc;
     sourcePosition := n + sourcePosition pc;
     matches := matches pc;
     lr_stack := lr_stack pc;
     resume_stack := resume_stack pc;
     errors := errors pc |}.
Proof.
  unfold advance. induction n as [|n IH]; simpl.
  - destruct pc; reflexivity.
  - rewrite IH. reflexivity.
Qed.

Lemma advance_advance (n m : nat) (pc : ParseContext) :
  advance n (advance m pc) = advance (n + m) pc.
Proof.
  rewrite !advance_fields. simpl. f_equal. lia.
Qed.

Lemma advance_increment (n : nat) (pc : ParseContext) :
  advance n (incrementSourcePosition pc) = advance (S n) pc.
Proof.
  rewrite !advance_fields. simpl. f_equal. lia.
Qed.

(** Restoring the snapshot taken at entry after positions only moved gives
    the entry context back. *)
Lemma setState_advance (n : nat) (pc : ParseContext) :
  setState (state pc) (advance n pc) = pc.
Proof.
  rewrite advance_fields. destruct pc; unfold setState, state; simpl.
  rewrite firstn_all. reflexivity.
Qed.

Lemma remaining_at_end (pc : ParseContext) :
  sourcePosition pc = sourceEndPosition pc -> remaining pc = [].
Proof.
  unfold remaining, sourceEndPosition. intros ->. apply skipn_all.
Qed.

Lemma remaining_inside (pc : ParseContext) :
  valid pc -> sourcePosition pc <> sourceEndPosition pc ->
  exists e,
    dereference pc = Some e /\
    remaining pc = e :: remaining (incrementSourcePosition pc) /\
    valid (incrementSourcePosition pc).
Proof.
  intros Hv Hne. destruct (dereference_inside Hv Hne) as [e He].
  exists e. split; [exact He|]. split.
  - unfold remaining. rewrite skipn_nth_error.
    unfold dereference in He. rewrite He. reflexivity.
  - unfold valid, sourceEndPosition in *. simpl. lia.
Qed.

(** X1. Terminal and sequence parsers never read outside the source: on
    a valid context every node has an outcome, the context it leaves is
    valid again and is over the same source, provided the nodes of other
    classes inside it behave so. *)
Theorem nodes_stay_inside_source (node : ParserNode) (pc : ParseContext) :
  for_others defined_on_valid node ->
  valid pc ->
  exists ok pc',
    invoke node pc = Some (ok, pc') /\
    sourcePosition pc' <= sourceEndPosition pc /\
    source pc' = source pc.
Proof.
  intros Hothers Hv.
  destruct (invoke_defined node Hothers Hv) as (ok & pc' & Hcall & Hv' & Hs).
  exists ok, pc'. split; [exact Hcall|]. split; [|exact Hs].
  unfold valid, sourceEndPosition in *. rewrite <- Hs. exact Hv'.
Qed.

(** The helper of a sequence over nodes that only move the position. *)
Lemma parse_rest_only_moves (children : list ParserNode) :
  Forall (fun child =>
            forall pc ok pc',
              invoke child pc = Some (ok, pc') ->
              pc' = advance (if ok then terminals child else 0) pc)
         children ->
  forall pc ok pc',
    SequenceParser.parse_rest (map invoke children) pc = Some (ok, pc') ->
    exists k,
      pc' = advance k pc /\
      (ok = true -> k = list_sum (map terminals children)).
Proof.
  induction 1 as [|child rest Hchild _ IH]; intros pc ok pc'; simpl.
  - intros H; injection H as <- <-. exists 0. split; [|reflexivity].
    rewrite advance_fields. destruct pc; reflexivity.
  - destruct (invoke child pc) as [[[|] pc1]|] eqn:Hc; try discriminate.
    + intros Hrest. apply Hchild in Hc. subst pc1.
      destruct (IH _ _ _ Hrest) as (k & -> & Hk).
      exists (k + terminals child). split.
      * apply advance_advance.
      * intros Hok. rewrite (Hk Hok). apply Nat.add_comm.
    + intros H; injection H as <- <-. apply Hchild in Hc.
      exists 0. split; [exact Hc | discriminate].
Qed.

(** X2. A parser built from terminal and sequence parsers only touches
    nothing but the source position: after a call that returned true the
    context is the old one advanced by as many elements as the node has
    terminal parsers; after a call that returned false it is the old
    context itself. *)
Theorem terminals_only_move_position (node : ParserNode)
    (pc : ParseContext) (ok : bool) (pc' : ParseContext) :
  only_terminals node ->
  invoke node pc = Some (ok, pc') ->
  pc' = advance (if ok then terminals node else 0) pc.
Proof.
  unfold only_terminals. revert pc ok pc'.
  induction node as [v | children IH | p] using ParserNode_nested_ind;
    intros pc ok pc' Honly Hcall.
  - destruct (terminal_call_cases _ _ Hcall) as [[-> ->] | [-> ->]].
    + reflexivity.
    + rewrite advance_fields. destruct pc; reflexivity.
  - apply for_others_sequence in Honly.
    assert (Hall : Forall (fun child =>
              forall pc ok pc',
                invoke child pc = Some (ok, pc') ->
                pc' = advance (if ok then terminals child else 0) pc)
              children).
    { clear Hcall. induction IH as [|child rest Hchild _ IHrest].
      - constructor.
      - inversion Honly; subst. constructor.
        + intros pc0 ok0 pc0' H0. apply Hchild; assumption.
        + apply IHrest; assumption. }
    simpl in Hcall. rewrite call_unfold in Hcall.
    destruct (SequenceParser.parse_rest (map invoke children) pc)
      as [[[|] pc1]|] eqn:Hrest; try discriminate.
    + injection Hcall as <- <-.
      destruct (parse_rest_only_moves Hall _ Hrest) as (k & -> & Hk).
      rewrite (Hk eq_refl). reflexivity.
    + injection Hcall as <- <-.
      destruct (parse_rest_only_moves Hall _ Hrest) as (k & -> & _).
      rewrite setState_advance.
      rewrite advance_fields. destruct pc; reflexivity.
  - contradiction.
Qed.

(** The helper over terminal parsers compares the elements in front of
    the position with the terminal values, and stops at the first that
    differs. *)
Lemma parse_rest_terminals (values : list TerminalValueType) :
  forall pc, valid pc ->
  exists k,
    SequenceParser.parse_rest (map (fun v => TerminalParser.call v) values) pc
    = if prefix_matches (remaining pc) values
      then Some (true, advance (length values) pc)
      else Some (false, advance k pc).
Proof.
  induction values as [|v values IH]; intros pc Hv.
  - exists 0. reflexivity.
  - cbn [map SequenceParser.parse_rest prefix_matches length].
    unfold TerminalParser.call at 1.
    destruct (sourcePosition pc =? sourceEndPosition pc) eqn:Hend;
      cbn [negb].
    + apply Nat.eqb_eq in Hend. rewrite (remaining_at_end _ Hend).
      exists 0. reflexivity.
    + apply Nat.eqb_neq in Hend.
      destruct (remaining_inside Hv Hend) as (e & He & Hrem & Hv').
      rewrite He, Hrem. destruct (element_eq e v).
      * destruct (IH _ Hv') as [k Hk]. rewrite Hk.
        exists (S k). rewrite !advance_increment. reflexivity.
      * exists 0. reflexivity.
Qed.

(** X3. A sequence of terminal parsers recognises exactly its string of
    terminal values: called on a valid context it returns true if and only
    if the elements from the current position on start with elements that
    compare equal to the values, one by one and in order; then the position
    is advanced by the number of values, and otherwise the context is left
    as it was. *)
Theorem terminal_sequence_matches_prefix
    (values : list TerminalValueType) (pc : ParseContext) :
  valid pc ->
  invoke (SequenceNode (map TerminalNode values)) pc =
  if prefix_matches (remaining pc) values
  then Some (true, advance (length values) pc)
  else Some (false, pc).
Proof.
  intros Hv. simpl. rewrite map_map. simpl.
  rewrite call_unfold.
  destruct (parse_rest_terminals values Hv) as [k Hk]. rewrite Hk.
  destruct (prefix_matches (remaining pc) values).
  - reflexivity.
  - rewrite setState_advance. reflexivity.
Qed.

(** X4. Flattening is transparent: whichever overload of [operator >>]
    is selected, the parser it builds has on every context the outcome of
    the plain sequence of its two operands, as long as the left operand
    never loses recorded matches. *)
Theorem seq_parses_as_two_children (node1 node2 : ParserNode)
    (pc : ParseContext) :
  keeps_matches (invoke node1) ->
  invoke (node1 >> node2) pc = invoke (seq_node_node node1 node2) pc.
Proof.
  intros Hkeep.
  destruct node2 as [v2 | children2 | p2].
  - destruct node1 as [v1 | children1 | p1]; try reflexivity.
    apply invoke_spliced_left.
  - assert (Hright : forall node,
              keeps_matches (invoke node) ->
              invoke (SequenceNode ([node] ++ children2)) pc =
              invoke (SequenceNode [node; SequenceNode children2]) pc).
    { intros node Hk. simpl. rewrite !call_unfold. simpl.
      destruct (invoke node pc) as [[[|] pc1]|] eqn:Hn; try reflexivity.
      rewrite call_unfold.
      destruct (SequenceParser.parse_rest (map invoke children2) pc1)
        as [[[|] pc2]|]; simpl; try reflexivity.
      rewrite setState_absorbs; [reflexivity|].
      simpl. exact (Hk _ _ _ Hn). }
    destruct node1 as [v1 | children1 | p1].
    + apply (Hright (TerminalNode v1) Hkeep).
    + unfold seq, seq_sequence_sequence, seq_node_node.
      simpl. rewrite map_app.
      rewrite (call_unfold (map invoke children1 ++ map invoke children2)).
      rewrite parse_rest_app.
      rewrite (call_unfold [SequenceParser.call (map invoke children1);
                            SequenceParser.call (map invoke children2)]).
      simpl.
      rewrite (call_unfold (map invoke children1)).
      destruct (SequenceParser.parse_rest (map invoke children1) pc)
        as [[[|] pc1]|] eqn:H1; simpl.
      * assert (Hlen : length (matches pc) <= length (matches pc1)).
        { apply (Hkeep pc true pc1). simpl. rewrite call_unfold, H1.
          reflexivity. }
        rewrite call_unfold.
        destruct (SequenceParser.parse_rest (map invoke children2) pc1)
          as [[[|] pc2]|]; simpl; try reflexivity.
        rewrite setState_absorbs; [reflexivity | exact Hlen].
      * rewrite setState_idempotent. reflexivity.
      * reflexivity.
    + apply (Hright (OtherNode p1) Hkeep).
  - destruct node1 as [v1 | children1 | p1]; try reflexivity.
    apply invoke_spliced_left.
Qed.

Lemma contributed_build (e : SeqExpr) :
  contributed (build e) = flat_map contributed (operands e).
Proof.
  induction e as [node | lhs IHl rhs IHr]; simpl.
  - rewrite app_nil_r. reflexivity.
  - rewrite seq_contributed. simpl.
    rewrite IHl, IHr, flat_map_app. reflexivity.
Qed.

Lemma flat_map_contributed_plain (nodes : list ParserNode) :
  Forall (fun node => is_sequence node = false) nodes ->
  flat_map contributed nodes = nodes.
Proof.
  induction 1 as [|node rest Hn _ IH]; simpl.
  - reflexivity.
  - rewrite (contributed_not_sequence _ Hn), IH. reflexivity.
Qed.

(** X5. However an expression with at least one [operator >>] is
    grouped, it evaluates to one sequence parser whose children are what
    its operands contribute, from left to right; when no operand is a
    sequence parser the children are the operands themselves. *)
Theorem any_grouping_builds_flat_sequence (lhs rhs : SeqExpr) :
  build (Shift lhs rhs) =
    SequenceNode (flat_map contributed (operands (Shift lhs rhs))) /\
  (Forall (fun node => is_sequence node = false)
          (operands (Shift lhs rhs)) ->
   build (Shift lhs rhs) = SequenceNode (operands (Shift lhs rhs))).
Proof.
  assert (H : build (Shift lhs rhs) =
              SequenceNode (flat_map contributed (operands (Shift lhs rhs)))).
  { simpl. rewrite seq_contributed, !contributed_build, flat_map_app.
    reflexivity. }
  split; [exact H|].
  intros Hplain. rewrite H, (flat_map_contributed_plain Hplain).
  reflexivity.
Qed.

(** X6. A sequence parser with one child that obeys the rollback contract
    is that child: same flag, same context. *)
Theorem single_child_sequence (p : Parser) (pc : ParseContext) :
  rolls_back p ->
  SequenceParser.call [p] pc = p pc.
Proof.
  intros Hroll. rewrite call_unfold. simpl.
  destruct (p pc) as [[[|] pc']|] eqn:Hp; try reflexivity.
  apply Hroll in Hp. apply state_inj in Hp. destruct Hp as [Hpos Hlen].
  f_equal. f_equal.
  destruct pc'; unfold setState, state; simpl in *.
  rewrite Hpos, <- Hlen, firstn_all. reflexivity.
Qed.

End MoreFacts.

(** ** Further properties of [loadASCIIFile] *)

Section MoreUtilFacts.
Import String Ascii.
#[local] Open Scope string_scope.

(** X7. For a file that is not empty, [loadASCIIFile] returns its
    characters, and with [appendZero] its characters followed by exactly
    one ['\0']: the second result is one character longer and ends the
    first with the terminator. *)
Theorem loadASCIIFile_nonempty_file (fs : Util.FileSystem)
    (filename s : string) :
  fs filename = Some s ->
  s <> "" ->
  Util.loadASCIIFile fs filename false = s /\
  Util.loadASCIIFile fs filename true = s ++ String zero "" /\
  String.length (Util.loadASCIIFile fs filename true) = S (String.length s).
Proof.
  intros Hfile Hne.
  rewrite (loadASCIIFile_default fs filename Hfile).
  rewrite (loadASCIIFile_appendZero fs filename Hfile Hne).
  split; [reflexivity|]. split; [reflexivity|].
  clear Hfile Hne. induction s as [|ch s IH]; simpl.
  - reflexivity.
  - rewrite IH. reflexivity.
Qed.

(** X8. A file that cannot be opened is not reported: [loadASCIIFile]
    returns the empty string for it, as for an empty file, with and
    without [appendZero]. *)
Theorem loadASCIIFile_missing_file (fs : Util.FileSystem)
    (filename : string) (appendZero : bool) :
  fs filename = None ->
  Util.loadASCIIFile fs filename appendZero = "".
Proof.
  intros Hfile. unfold Util.loadASCIIFile, Util.rdbuf. rewrite Hfile.
  destruct appendZero; reflexivity.
Qed.

Lemma loadASCIIFile_nonempty_file_witness :
  Util.loadASCIIFile Util.sample_fs "abc.txt" false = "abc" /\
  Util.loadASCIIFile Util.sample_fs "abc.txt" true = "abc" ++ String zero "" /\
  String.length (Util.loadASCIIFile Util.sample_fs "abc.txt" true) = 4.
Proof.
  apply (@loadASCIIFile_nonempty_file Util.sample_fs "abc.txt" "abc").
  - reflexivity.
  - discriminate.
Defined.

Lemma loadASCIIFile_missing_file_witness :
  Util.loadASCIIFile Util.sample_fs "missing.txt" true = "".
Proof.
  apply (@loadASCIIFile_missing_file Util.sample_fs "missing.txt" true).
  reflexivity.
Defined.

End MoreUtilFacts.

(** ** More runs on sample inputs *)

Section MoreSampleRuns.
Import Ascii Samples.
#[local] Open Scope char_scope.

Lemma nodes_stay_inside_source_witness :
  exists ok pc',
    invoke (ab >> c) (context_at ["a"; "b"] 0) = Some (ok, pc') /\
    sourcePosition pc' <= 2 /\
    source pc' = ["a"; "b"].
Proof.
  apply (@nodes_stay_inside_source CharTypes (ab >> c)
           (context_at ["a"; "b"] 0)).
  - simpl. repeat split.
  - unfold valid, sourceEndPosition. simpl. lia.
Defined.

Lemma terminals_only_move_position_witness :
  context_at ["a"; "b"; "c"] 2 = advance 2 (context_at ["a"; "b"; "c"] 0).
Proof.
  apply (@terminals_only_move_position CharTypes ab
           (context_at ["a"; "b"; "c"] 0) true
           (context_at ["a"; "b"; "c"] 2)).
  - simpl. repeat split.
  - reflexivity.
Defined.

Lemma terminal_sequence_matches_prefix_witness :
  invoke (SequenceNode (map TerminalNode ["a"; "b"]))
         (context_at ["a"; "b"; "c"] 0) =
  Some (true, context_at ["a"; "b"; "c"] 2).
Proof.
  apply (@terminal_sequence_matches_prefix CharTypes ["a"; "b"]
           (context_at ["a"; "b"; "c"] 0)).
  unfold valid, sourceEndPosition. simpl. lia.
Defined.

Lemma terminal_keeps_matches (v : ascii) :
  keeps_matches (TerminalParser.call (PT := CharTypes) v).
Proof. apply terminal_obeys_contract. Defined.

Lemma seq_parses_as_two_children_witness :
  invoke (a >> SequenceNode [b; c]) (context_at ["a"; "b"; "x"] 0) =
  invoke (seq_node_node a (SequenceNode [b; c]))
         (context_at ["a"; "b"; "x"] 0).
Proof.
  apply (@seq_parses_as_two_children CharTypes a (SequenceNode [b; c])
           (context_at ["a"; "b"; "x"] 0)).
  apply terminal_keeps_matches.
Defined.

Lemma any_grouping_builds_flat_sequence_witness :
  build (Shift (Operand a) (Shift (Operand b) (Operand c))) =
  SequenceNode [a; b; c].
Proof.
  destruct (@any_grouping_builds_flat_sequence CharTypes
              (Operand a) (Shift (Operand b) (Operand c))) as [_ H].
  apply H. repeat constructor.
Defined.

Lemma single_child_sequence_witness :
  SequenceParser.call [tb] (context_at ["a"] 0) = tb (context_at ["a"] 0).
Proof.
  apply (@single_child_sequence CharTypes tb (context_at ["a"] 0)).
  apply terminal_obeys_contract.
Defined.

End MoreSampleRuns.
